(** * Synchronized partition state manager

    A shallow embedding of [sentry/eventstream/kafka/state.py]: the state
    machine that tracks the progress of a "local" Kafka consumer relative to
    a "remote" one, per [(topic, partition)].

    Modelling choices, all read off the source:
    - offsets are Python integers (unbounded), hence [Z]; a side that has not
      been observed is [None];
    - [self.partitions] is a [defaultdict]: reading a missing key stores the
      default record under that key before returning it.  The dictionary is a
      [gmap] and the read is the state-changing [getitem] below;
    - the module is Python 2 code ([from __future__ import absolute_import],
      new-style [object] classes): ordering comparisons between an integer
      and [None] do not raise, [None] sorts before every integer;
    - [logger] calls and the injected [callback] are the observable effects
      of a call; they are recorded, in order, in a trace of events.  The
      callback is opaque to the manager: its invocation is an event, and it is
      taken to return without touching the manager;
    - exceptions abort the call; whatever was stored before the [raise]
      stays stored. *)

From stdpp Require Import gmap strings list fin_maps.

Local Open Scope Z_scope.

(** ** Data model *)

(** [Offsets = namedtuple('Offsets', 'local remote')] *)
Record Offsets : Type := mkOffsets { local : option Z; remote : option Z }.

#[global] Instance Offsets_eq_dec : EqDecision Offsets.
Proof. solve_decision. Defined.

(** [class PartitionState]: four string constants. *)
Inductive PartitionState : Type :=
| SYNCHRONIZED
| LOCAL_BEHIND
| REMOTE_BEHIND
| UNKNOWN.

#[global] Instance PartitionState_eq_dec : EqDecision PartitionState.
Proof. solve_decision. Defined.

(** The three exception classes of the module.  [InvalidStateTransition]
    carries the two states its message is formatted from. *)
Inductive Exception : Type :=
| InvalidState
| InvalidStateTransition (from : option PartitionState) (to : PartitionState)
| MessageNotReady.

#[global] Instance Exception_eq_dec : EqDecision Exception.
Proof. solve_decision. Defined.

(** A stored value: [(state, offsets)], where the state is [None] only in
    the default record. *)
Definition Entry : Type := option PartitionState * Offsets.

(** Dictionary keys: [(topic, partition)]. *)
Definition Key : Type := string * Z.

(** What a call does besides changing the dictionary. *)
Inductive Event : Type :=
| LogInfo (msg : string) (current : Z) (previous : option Z)
| LogWarning (msg : string) (args : list (option Z))
| Callback (topic : string) (partition : Z) (previous updated : Entry).

Definition is_callback (e : Event) : bool :=
  match e with Callback _ _ _ _ => true | _ => false end.

Definition is_log_info (e : Event) : bool :=
  match e with LogInfo _ _ _ => true | _ => false end.

(** ** Python 2 ordering of [int] and [None] *)

(** [a < b]: [None] is smaller than every integer and not smaller than
    itself. *)
Definition py_lt (a b : option Z) : bool :=
  match a, b with
  | Some x, Some y => x <? y
  | None, Some _ => true
  | _, None => false
  end.

(** [a >= b] *)
Definition py_ge (a b : option Z) : bool :=
  match a, b with
  | Some x, Some y => y <=? x
  | None, Some _ => false
  | _, None => true
  end.

(** [a is not b] on states: the constants are unique objects, so identity
    is equality of the tags. *)
Definition is_not (a b : option PartitionState) : bool :=
  negb (bool_decide (a = b)).

(** ** The manager's computations *)

(** A computation reads and writes the dictionary, emits events, and either
    returns a value or raises. *)
Definition Mgr (A : Type) : Type :=
  gmap Key Entry → (Exception + A) * gmap Key Entry * list Event.

#[global] Instance Mgr_ret : MRet Mgr :=
  λ A (a : A) parts, (inr a, parts, []).

#[global] Instance Mgr_bind : MBind Mgr :=
  λ A B (f : A → Mgr B) (c : Mgr A) parts,
    match c parts with
    | (inl e, parts1, tr1) => (inl e, parts1, tr1)
    | (inr a, parts1, tr1) =>
        match f a parts1 with
        | (r, parts2, tr2) => (r, parts2, tr1 ++ tr2)
        end
    end.

Definition raise {A : Type} (e : Exception) : Mgr A :=
  λ parts, (inl e, parts, []).

Definition emit (e : Event) : Mgr unit :=
  λ parts, (inr tt, parts, [e]).

Definition when (b : bool) (c : Mgr unit) : Mgr unit :=
  if b then c else mret tt.

(** [lambda: (None, Offsets(None, None))] *)
Definition default_entry : Entry := (None, mkOffsets None None).

(** [self.partitions[key]] as an expression: [defaultdict.__getitem__]
    stores the default under a missing key. *)
Definition getitem (key : Key) : Mgr Entry :=
  λ parts,
    match parts !! key with
    | Some v => (inr v, parts, [])
    | None => (inr default_entry, <[key := default_entry]> parts, [])
    end.

(** [self.partitions[key] = value] *)
Definition setitem (key : Key) (value : Entry) : Mgr unit :=
  λ parts, (inr tt, <[key := value]> parts, []).

(** The value a read of [key] yields, without the write. *)
Definition peek (parts : gmap Key Entry) (key : Key) : Entry :=
  default (default_entry) (parts !! key).

(** Projections of the outcome of a computation. *)
Definition outcome {A} (r : (Exception + A) * gmap Key Entry * list Event)
  : Exception + A := r.1.1.
Definition store {A} (r : (Exception + A) * gmap Key Entry * list Event)
  : gmap Key Entry := r.1.2.
Definition trace {A} (r : (Exception + A) * gmap Key Entry * list Event)
  : list Event := r.2.

(** ** [SynchronizedPartitionStateManager] *)

(** [transitions]: from state -> set of to states. *)
Definition transitions (from : option PartitionState) : list PartitionState :=
  match from with
  | None => [UNKNOWN]
  | Some UNKNOWN => [LOCAL_BEHIND; REMOTE_BEHIND; SYNCHRONIZED]
  | Some REMOTE_BEHIND => [LOCAL_BEHIND; SYNCHRONIZED]
  | Some LOCAL_BEHIND => [SYNCHRONIZED; REMOTE_BEHIND]
  | Some SYNCHRONIZED => [LOCAL_BEHIND; REMOTE_BEHIND]
  end.

(** [__init__]: an empty dictionary. *)
Definition init : gmap Key Entry := ∅.

Definition get_state_from_offsets (offsets : Offsets) : PartitionState :=
  match local offsets, remote offsets with
  | Some l, Some r =>
      if l <? r then LOCAL_BEHIND
      else if r <? l then REMOTE_BEHIND
      else SYNCHRONIZED
  | _, _ => UNKNOWN
  end.

Definition set_local_offset (topic : string) (partition : Z) (local_offset : Z)
  : Mgr unit :=
  '(previous_state, previous_offsets) ← getitem (topic, partition);
  when (py_lt (Some local_offset) (local previous_offsets))
    (emit (LogInfo "Local offset has moved backwards (current: %s, previous: %s)"
             local_offset (local previous_offsets)));;
  let updated_offsets := mkOffsets (Some local_offset) (remote previous_offsets) in
  let updated_state := get_state_from_offsets updated_offsets in
  if is_not previous_state (Some updated_state)
     && negb (bool_decide (updated_state ∈ transitions previous_state))
  then raise (InvalidStateTransition previous_state updated_state)
  else
    setitem (topic, partition) (Some updated_state, updated_offsets);;
    when (is_not previous_state (Some updated_state))
      (when (bool_decide (updated_state = REMOTE_BEHIND))
         (emit (LogWarning "Current local offset (%s) exceeds remote offset (%s)!"
                  [local updated_offsets; remote updated_offsets]));;
       emit (Callback topic partition
               (previous_state, previous_offsets)
               (Some updated_state, updated_offsets))).

Definition set_remote_offset (topic : string) (partition : Z) (remote_offset : Z)
  : Mgr unit :=
  '(previous_state, previous_offsets) ← getitem (topic, partition);
  when (py_lt (Some remote_offset) (remote previous_offsets))
    (emit (LogInfo "Remote offset has moved backwards (current: %s, previous: %s)"
             remote_offset (remote previous_offsets)));;
  let updated_offsets := mkOffsets (local previous_offsets) (Some remote_offset) in
  let updated_state := get_state_from_offsets updated_offsets in
  if is_not previous_state (Some updated_state)
     && negb (bool_decide (updated_state ∈ transitions previous_state))
  then raise (InvalidStateTransition previous_state updated_state)
  else
    setitem (topic, partition) (Some updated_state, updated_offsets);;
    when (is_not previous_state (Some updated_state))
      (emit (Callback topic partition
               (previous_state, previous_offsets)
               (Some updated_state, updated_offsets))).

Definition validate_local_message (topic : string) (partition : Z) (offset : Z)
  : Mgr unit :=
  '(state, offsets) ← getitem (topic, partition);
  if is_not state (Some LOCAL_BEHIND) then raise InvalidState
  else if py_ge (Some offset) (remote offsets) then raise MessageNotReady
  else
    when (py_lt (Some offset) (local offsets))
      (emit (LogWarning
               "Received a message prior to local offset (local consumer offset rewound without update?)"
               [])).

(** ** Sequences of offset updates *)

(** One call made by the offset source. *)
Inductive OffsetCall : Type :=
| SetLocal (topic : string) (partition : Z) (value : Z)
| SetRemote (topic : string) (partition : Z) (value : Z).

Definition call_key (c : OffsetCall) : Key :=
  match c with
  | SetLocal t p _ | SetRemote t p _ => (t, p)
  end.

Definition exec (c : OffsetCall) : Mgr unit :=
  match c with
  | SetLocal t p v => set_local_offset t p v
  | SetRemote t p v => set_remote_offset t p v
  end.

(** The dictionary after a sequence of calls.  A call that raises does not
    stop the sequence: the caller may catch the exception and go on with the
    same manager. *)
Fixpoint run (cs : list OffsetCall) (parts : gmap Key Entry) : gmap Key Entry :=
  match cs with
  | [] => parts
  | c :: cs' => run cs' (store (exec c parts))
  end.

(** The outcome of each call of the sequence, in order. *)
Fixpoint outcomes (cs : list OffsetCall) (parts : gmap Key Entry)
  : list (Exception + unit) :=
  match cs with
  | [] => []
  | c :: cs' => outcome (exec c parts) :: outcomes cs' (store (exec c parts))
  end.

(** ** Predicates used in the statements *)

(** The dictionary after a read of [key]. *)
Definition touch (key : Key) (parts : gmap Key Entry) : gmap Key Entry :=
  match parts !! key with
  | Some _ => parts
  | None => <[key := default_entry]> parts
  end.

(** A transition the validation step lets through. *)
Definition allowed (previous : option PartitionState) (updated : PartitionState)
  : Prop :=
  previous = Some updated ∨ updated ∈ transitions previous.

#[global] Instance allowed_dec previous updated : Decision (allowed previous updated).
Proof. unfold allowed. apply _. Defined.

(** Both sides of the pair have been observed. *)
Definition both_present (o : Offsets) : Prop :=
  is_Some (local o) ∧ is_Some (remote o).

(** The state is one of the three states that compare two offsets. *)
Definition tracked (s : option PartitionState) : Prop :=
  s = Some LOCAL_BEHIND ∨ s = Some REMOTE_BEHIND ∨ s = Some SYNCHRONIZED.

(** The entry stores the state derived from its own offsets. *)
Definition derived_entry (e : Entry) : Prop :=
  e.1 = Some (get_state_from_offsets e.2).

(** The callback invocations of a trace, in order. *)
Definition callbacks (tr : list Event) : list Event :=
  List.filter is_callback tr.

(** The [logger.info] records of a trace, in order. *)
Definition infos (tr : list Event) : list Event :=
  List.filter is_log_info tr.

(** The events of [set_local_offset], as a function of what was stored. *)
Definition local_trace (topic : string) (partition : Z) (value : Z) (prev : Entry)
  : list Event :=
  let uo := mkOffsets (Some value) (remote prev.2) in
  let us := get_state_from_offsets uo in
  (if py_lt (Some value) (local prev.2)
   then [LogInfo "Local offset has moved backwards (current: %s, previous: %s)"
           value (local prev.2)]
   else []) ++
  (if decide (allowed prev.1 us) then
     if decide (prev.1 = Some us) then []
     else (if decide (us = REMOTE_BEHIND)
           then [LogWarning "Current local offset (%s) exceeds remote offset (%s)!"
                   [Some value; remote prev.2]]
           else []) ++ [Callback topic partition prev (Some us, uo)]
   else []).

Definition remote_trace (topic : string) (partition : Z) (value : Z) (prev : Entry)
  : list Event :=
  let uo := mkOffsets (local prev.2) (Some value) in
  let us := get_state_from_offsets uo in
  (if py_lt (Some value) (remote prev.2)
   then [LogInfo "Remote offset has moved backwards (current: %s, previous: %s)"
           value (remote prev.2)]
   else []) ++
  (if decide (allowed prev.1 us) then
     if decide (prev.1 = Some us) then []
     else [Callback topic partition prev (Some us, uo)]
   else []).

(** The side of the pair a call writes, its new value, and the pair it
    builds from the stored one ([updated_offsets] in both methods). *)
Definition call_value (c : OffsetCall) : Z :=
  match c with
  | SetLocal _ _ v | SetRemote _ _ v => v
  end.

Definition side (c : OffsetCall) (o : Offsets) : option Z :=
  match c with
  | SetLocal _ _ _ => local o
  | SetRemote _ _ _ => remote o
  end.

Definition other_side (c : OffsetCall) (o : Offsets) : option Z :=
  match c with
  | SetLocal _ _ _ => remote o
  | SetRemote _ _ _ => local o
  end.

Definition updated_offsets (c : OffsetCall) (previous : Offsets) : Offsets :=
  match c with
  | SetLocal _ _ v => mkOffsets (Some v) (remote previous)
  | SetRemote _ _ v => mkOffsets (local previous) (Some v)
  end.

Definition call_trace (c : OffsetCall) (prev : Entry) : list Event :=
  match c with
  | SetLocal t p v => local_trace t p v prev
  | SetRemote t p v => remote_trace t p v prev
  end.

(** An entry as the dictionary holds it when only the three methods have
    written to it: the default record, or a state derived from its offsets. *)
Definition wf_entry (e : Entry) : Prop :=
  e = default_entry ∨ derived_entry e.

Definition wf (parts : gmap Key Entry) : Prop :=
  ∀ key, wf_entry (peek parts key).

(** ** Sequences of calls of all three methods *)

(** One call made by either client of the manager: the offset source or
    the consumption gate. *)
Inductive Call : Type :=
| Update (c : OffsetCall)
| Validate (topic : string) (partition : Z) (offset : Z).

Definition target (c : Call) : Key :=
  match c with
  | Update c => call_key c
  | Validate t p _ => (t, p)
  end.

Definition perform (c : Call) : Mgr unit :=
  match c with
  | Update c => exec c
  | Validate t p o => validate_local_message t p o
  end.

(** The dictionary, the outcomes and the events of a sequence of calls;
    as in [run], a call that raises does not stop the sequence. *)
Fixpoint run_calls (cs : list Call) (parts : gmap Key Entry) : gmap Key Entry :=
  match cs with
  | [] => parts
  | c :: cs' => run_calls cs' (store (perform c parts))
  end.

Fixpoint run_outcomes (cs : list Call) (parts : gmap Key Entry)
  : list (Exception + unit) :=
  match cs with
  | [] => []
  | c :: cs' => outcome (perform c parts) :: run_outcomes cs' (store (perform c parts))
  end.

Fixpoint run_traces (cs : list Call) (parts : gmap Key Entry) : list (list Event) :=
  match cs with
  | [] => []
  | c :: cs' => trace (perform c parts) :: run_traces cs' (store (perform c parts))
  end.

Definition is_log_warning (e : Event) : bool :=
  match e with LogWarning _ _ => true | _ => false end.

(** The [logger.warning] records of a trace, in order. *)
Definition warnings (tr : list Event) : list Event :=
  List.filter is_log_warning tr.

(** Two dictionaries that no read can tell apart. *)
Definition same_reads (m1 m2 : gmap Key Entry) : Prop :=
  ∀ key, peek m1 key = peek m2 key.

(** * Properties *)

(** ** Reading the dictionary *)

Lemma getitem_eq key parts :
  getitem key parts = (inr (peek parts key), touch key parts, []).
Proof.
  unfold getitem, peek, touch. destruct (parts !! key); reflexivity.
Qed.

Lemma peek_touch key key' parts : peek (touch key parts) key' = peek parts key'.
Proof.
  unfold peek, touch. destruct (parts !! key) eqn:E; [done|].
  destruct (decide (key = key')) as [->|Hne].
  - by rewrite lookup_insert_eq, E.
  - by rewrite lookup_insert_ne.
Qed.

Lemma insert_touch key (v : Entry) parts :
  <[key := v]> (touch key parts) = <[key := v]> parts.
Proof.
  unfold touch. destruct (parts !! key); [done|]. apply insert_insert_eq.
Qed.

Lemma touch_lookup_ne key key' parts :
  key' ≠ key → touch key parts !! key' = parts !! key'.
Proof.
  intros Hne. unfold touch. destruct (parts !! key); [done|].
  by rewrite lookup_insert_ne.
Qed.

Lemma touch_lookup_Some key key' (e : Entry) parts :
  parts !! key' = Some e → touch key parts !! key' = Some e.
Proof.
  intros He. unfold touch. destruct (parts !! key) eqn:E; [done|].
  rewrite lookup_insert_ne; [done|]. congruence.
Qed.

Lemma touch_present key parts : is_Some (parts !! key) → touch key parts = parts.
Proof. intros [v Hv]. unfold touch. by rewrite Hv. Qed.

Lemma peek_insert_eq key (v : Entry) parts : peek (<[key := v]> parts) key = v.
Proof. unfold peek. by rewrite lookup_insert_eq. Qed.

Lemma peek_insert_ne key key' (v : Entry) parts :
  key ≠ key' → peek (<[key := v]> parts) key' = peek parts key'.
Proof. intros. unfold peek. by rewrite lookup_insert_ne. Qed.

(** ** The two updates, call by call *)

Lemma set_local_offset_eq topic partition value parts :
  let prev := peek parts (topic, partition) in
  let uo := mkOffsets (Some value) (remote prev.2) in
  let us := get_state_from_offsets uo in
  set_local_offset topic partition value parts =
    if decide (allowed prev.1 us)
    then (inr tt, <[(topic, partition) := (Some us, uo)]> parts,
          local_trace topic partition value prev)
    else (inl (InvalidStateTransition prev.1 us), touch (topic, partition) parts,
          local_trace topic partition value prev).
Proof.
  intros prev uo us.
  unfold set_local_offset, local_trace, mbind, Mgr_bind.
  rewrite getitem_eq. fold prev. destruct prev as [ps po]; cbn [fst snd].
  fold uo us. unfold is_not, allowed, when, emit, raise, setitem, mret, Mgr_ret.
  destruct (py_lt (Some value) (local po));
    repeat (case_decide || case_bool_decide); cbn -[get_state_from_offsets touch];
    rewrite ?insert_touch, ?app_nil_r; try reflexivity; try tauto; try congruence.
Qed.

Lemma set_remote_offset_eq topic partition value parts :
  let prev := peek parts (topic, partition) in
  let uo := mkOffsets (local prev.2) (Some value) in
  let us := get_state_from_offsets uo in
  set_remote_offset topic partition value parts =
    if decide (allowed prev.1 us)
    then (inr tt, <[(topic, partition) := (Some us, uo)]> parts,
          remote_trace topic partition value prev)
    else (inl (InvalidStateTransition prev.1 us), touch (topic, partition) parts,
          remote_trace topic partition value prev).
Proof.
  intros prev uo us.
  unfold set_remote_offset, remote_trace, mbind, Mgr_bind.
  rewrite getitem_eq. fold prev. destruct prev as [ps po]; cbn [fst snd].
  fold uo us. unfold is_not, allowed, when, emit, raise, setitem, mret, Mgr_ret.
  destruct (py_lt (Some value) (remote po));
    repeat (case_decide || case_bool_decide); cbn -[get_state_from_offsets touch];
    rewrite ?insert_touch, ?app_nil_r; try reflexivity; try tauto; try congruence.
Qed.

Lemma validate_local_message_eq topic partition offset parts :
  let cur := peek parts (topic, partition) in
  validate_local_message topic partition offset parts =
    (if decide (cur.1 = Some LOCAL_BEHIND)
     then if py_ge (Some offset) (remote cur.2) then inl MessageNotReady else inr tt
     else inl InvalidState,
     touch (topic, partition) parts,
     if decide (cur.1 = Some LOCAL_BEHIND)
     then if py_ge (Some offset) (remote cur.2) then []
          else if py_lt (Some offset) (local cur.2)
               then [LogWarning
                       "Received a message prior to local offset (local consumer offset rewound without update?)"
                       []]
               else []
     else []).
Proof.
  intros cur.
  unfold validate_local_message, mbind, Mgr_bind.
  rewrite getitem_eq. fold cur. destruct cur as [st o]; cbn [fst snd].
  unfold is_not, when, emit, raise, mret, Mgr_ret.
  case_decide; case_bool_decide; try congruence; cbn [negb]; [|reflexivity].
  destruct (py_ge (Some offset) (remote o)); [reflexivity|].
  destruct (py_lt (Some offset) (local o)); reflexivity.
Qed.

(** A stored state always has a row in the table, and no row lists the
    state of a pair with a missing side. *)
Lemma transitions_tracked previous updated :
  updated ∈ transitions previous → previous ≠ None → tracked (Some updated).
Proof.
  unfold tracked. intros Hin Hne.
  apply (bool_decide_pack _) in Hin.
  destruct previous as [[]|], updated; try congruence;
    first [ by left | by right; left | by right; right
          | vm_compute in Hin; destruct Hin ].
Qed.

Lemma derive_both_present o : both_present o → tracked (Some (get_state_from_offsets o)).
Proof.
  destruct o as [[l|] [r|]]; intros [[? Hl] [? Hr]]; cbn in *; try discriminate.
  unfold tracked, get_state_from_offsets; cbn.
  destruct (l <? r); [tauto|]. destruct (r <? l); tauto.
Qed.

Lemma tracked_allowed previous updated :
  tracked previous → tracked (Some updated) → allowed previous updated.
Proof.
  unfold tracked, allowed.
  intros Hp Hu.
  destruct (decide (previous = Some updated)) as [|Hne]; [by left|right].
  apply (bool_decide_unpack _).
  destruct Hp as [-> | [-> | ->] ], Hu as [H | [H | H] ]; injection H as ->;
    try congruence; exact I.
Qed.

(** Both updates at once. *)
Lemma exec_eq (c : OffsetCall) parts :
  let prev := peek parts (call_key c) in
  let uo := updated_offsets c prev.2 in
  let us := get_state_from_offsets uo in
  exec c parts =
    if decide (allowed prev.1 us)
    then (inr tt, <[call_key c := (Some us, uo)]> parts, call_trace c prev)
    else (inl (InvalidStateTransition prev.1 us), touch (call_key c) parts,
          call_trace c prev).
Proof.
  destruct c as [t p v|t p v]; cbn -[get_state_from_offsets].
  - apply set_local_offset_eq.
  - apply set_remote_offset_eq.
Qed.

(** What the updated pair looks like, side by side. *)
Lemma updated_offsets_side c o : side c (updated_offsets c o) = Some (call_value c).
Proof. by destruct c. Qed.

Lemma updated_offsets_other_side c o :
  other_side c (updated_offsets c o) = other_side c o.
Proof. by destruct c. Qed.

Lemma updated_offsets_both_present c o :
  both_present o → both_present (updated_offsets c o).
Proof. destruct c; intros [Hl Hr]; split; cbn; eauto. Qed.

(** From the default record every update derives [UNKNOWN]. *)
Lemma derive_from_default c :
  get_state_from_offsets (updated_offsets c default_entry.2) = UNKNOWN.
Proof. by destruct c. Qed.

(** A well-formed entry never fails the validation step. *)
Lemma wf_entry_allowed c e :
  wf_entry e → allowed e.1 (get_state_from_offsets (updated_offsets c e.2)).
Proof.
  intros [->|Hd].
  - rewrite derive_from_default. right. cbn. set_solver.
  - destruct e as [st o]. unfold derived_entry in Hd. cbn [fst snd] in *. subst st.
    destruct (decide (both_present (updated_offsets c o))) as [Hb|Hb].
    + destruct (decide (both_present o)) as [Hp|Hp].
      * by apply tracked_allowed; apply derive_both_present.
      * apply derive_both_present in Hb.
        replace (get_state_from_offsets o) with UNKNOWN.
        { right. apply (bool_decide_unpack _).
          destruct Hb as [Hb | [Hb | Hb] ]; injection Hb as ->; exact I. }
        destruct o as [ [l|] [r|] ]; try reflexivity.
        exfalso; apply Hp; split; eauto.
    + left. f_equal.
      destruct c, o as [ [l|] [r|] ]; try reflexivity;
        exfalso; apply Hb; split; cbn; eauto.
Qed.

(** ** Well-formed dictionaries *)

Lemma wf_init : wf init.
Proof. intros key. left. unfold peek, init. by rewrite lookup_empty. Qed.

Lemma wf_touch key parts : wf parts → wf (touch key parts).
Proof. intros Hwf key'. rewrite peek_touch. apply Hwf. Qed.

Lemma exec_wf_entry c parts :
  wf_entry (peek parts (call_key c)) →
  exec c parts =
    (inr tt,
     <[call_key c :=
         (Some (get_state_from_offsets (updated_offsets c (peek parts (call_key c)).2)),
          updated_offsets c (peek parts (call_key c)).2)]> parts,
     call_trace c (peek parts (call_key c))).
Proof.
  intros Hwf. rewrite exec_eq. cbv zeta.
  case_decide as Ha; [reflexivity|].
  destruct Ha. by apply wf_entry_allowed.
Qed.

Lemma wf_exec c parts : wf parts → wf (store (exec c parts)).
Proof.
  intros Hwf key. rewrite exec_wf_entry by apply Hwf. unfold store; cbn [fst snd].
  destruct (decide (call_key c = key)) as [<-|Hne].
  - rewrite peek_insert_eq. by right.
  - rewrite peek_insert_ne by done. apply Hwf.
Qed.

Lemma wf_validate topic partition offset parts :
  wf parts → wf (store (validate_local_message topic partition offset parts)).
Proof.
  intros Hwf. rewrite validate_local_message_eq. unfold store; cbn [fst snd].
  by apply wf_touch.
Qed.

Lemma wf_run cs : ∀ parts, wf parts → wf (run cs parts).
Proof.
  induction cs as [|c cs IH]; intros parts Hwf; cbn; [done|].
  apply IH. by apply wf_exec.
Qed.

Lemma outcomes_wf cs : ∀ parts, wf parts → Forall (λ o, o = inr tt) (outcomes cs parts).
Proof.
  induction cs as [|c cs IH]; intros parts Hwf; cbn; constructor.
  - by rewrite exec_wf_entry by apply Hwf.
  - apply IH. by apply wf_exec.
Qed.

(** ** What one update leaves behind *)

Lemma exec_store_other c parts key :
  key ≠ call_key c → store (exec c parts) !! key = parts !! key.
Proof.
  intros Hne. rewrite exec_eq. cbv zeta. unfold store.
  case_decide; cbn [fst snd].
  - by rewrite lookup_insert_ne.
  - by apply touch_lookup_ne.
Qed.

Lemma exec_peek_other c parts key :
  key ≠ call_key c → peek (store (exec c parts)) key = peek parts key.
Proof. intros Hne. unfold peek. by rewrite exec_store_other. Qed.

(** When the validation step fails the key already had a record. *)
Lemma not_allowed_present c parts :
  ¬ allowed (peek parts (call_key c)).1
      (get_state_from_offsets (updated_offsets c (peek parts (call_key c)).2)) →
  is_Some (parts !! call_key c).
Proof.
  intros Hna. destruct (parts !! call_key c) as [e|] eqn:E; [eauto|].
  destruct Hna. unfold peek. rewrite E. cbn [default].
  apply wf_entry_allowed. by left.
Qed.

Lemma exec_peek_same c parts :
  peek (store (exec c parts)) (call_key c) =
    let prev := peek parts (call_key c) in
    let uo := updated_offsets c prev.2 in
    if decide (allowed prev.1 (get_state_from_offsets uo))
    then (Some (get_state_from_offsets uo), uo)
    else prev.
Proof.
  rewrite exec_eq. cbv zeta. unfold store. case_decide; cbn [fst snd].
  - apply peek_insert_eq.
  - apply peek_touch.
Qed.

(** One update keeps a complete pair complete and a tracked state tracked. *)
Lemma exec_both_present c parts key :
  both_present (peek parts key).2 → both_present (peek (store (exec c parts)) key).2.
Proof.
  intros Hb. destruct (decide (key = call_key c)) as [->|Hne].
  - rewrite exec_peek_same. cbv zeta. case_decide; cbn [snd]; [|done].
    by apply updated_offsets_both_present.
  - by rewrite exec_peek_other.
Qed.

Lemma exec_tracked c parts key :
  tracked (peek parts key).1 → tracked (peek (store (exec c parts)) key).1.
Proof.
  intros Ht. destruct (decide (key = call_key c)) as [->|Hne].
  - rewrite exec_peek_same. cbv zeta. case_decide as Ha; cbn [fst]; [|done].
    destruct Ha as [Ha|Ha].
    + by rewrite <- Ha.
    + eapply transitions_tracked; [done|].
      intros E. rewrite E in Ht. by destruct Ht as [?|[?|?]].
  - by rewrite exec_peek_other.
Qed.

(** * The documented behaviour *)

(** C2: state derivation.  A pair with the local side or the remote side
    absent derives [UNKNOWN]; a pair with both sides present derives
    [LOCAL_BEHIND] exactly when local < remote, [REMOTE_BEHIND] exactly when
    local > remote, and [SYNCHRONIZED] exactly when local = remote. *)
Theorem get_state_from_offsets_spec (ol or : option Z) (l r : Z) :
  get_state_from_offsets (mkOffsets None or) = UNKNOWN
  ∧ get_state_from_offsets (mkOffsets ol None) = UNKNOWN
  ∧ (get_state_from_offsets (mkOffsets (Some l) (Some r)) = LOCAL_BEHIND ↔ l < r)
  ∧ (get_state_from_offsets (mkOffsets (Some l) (Some r)) = REMOTE_BEHIND ↔ l > r)
  ∧ (get_state_from_offsets (mkOffsets (Some l) (Some r)) = SYNCHRONIZED ↔ l = r).
Proof.
  unfold get_state_from_offsets; cbn [local remote].
  split; [reflexivity|]. split; [by destruct ol|].
  destruct (Z.ltb_spec l r), (Z.ltb_spec r l);
    repeat split; intros; try discriminate; try lia; reflexivity.
Qed.

(** C1: the admission check.  For every key, [validate_local_message]
    returns normally if and only if the key's current state is
    [LOCAL_BEHIND] and the offset is below the stored remote offset; it
    raises [InvalidState] whenever the current state is the absent state,
    [UNKNOWN], [SYNCHRONIZED] or [REMOTE_BEHIND]; and it raises
    [MessageNotReady] when the state is [LOCAL_BEHIND] and the offset is at
    or above the stored remote offset. *)
Theorem validate_local_message_outcome
    (topic : string) (partition offset : Z) (parts : gmap Key Entry) :
  let cur := peek parts (topic, partition) in
  let res := outcome (validate_local_message topic partition offset parts) in
  (res = inr tt ↔
     cur.1 = Some LOCAL_BEHIND ∧ ∃ r, remote cur.2 = Some r ∧ offset < r)
  ∧ (cur.1 = None ∨ cur.1 = Some UNKNOWN ∨ cur.1 = Some SYNCHRONIZED
     ∨ cur.1 = Some REMOTE_BEHIND → res = inl InvalidState)
  ∧ (∀ r, cur.1 = Some LOCAL_BEHIND → remote cur.2 = Some r → offset >= r →
          res = inl MessageNotReady).
Proof.
  intros cur res. subst res. rewrite validate_local_message_eq. fold cur.
  unfold outcome; cbn [fst]. destruct cur as [st [lo ro] ]; cbn [fst snd remote].
  case_decide as Hst.
  - destruct ro as [r|]; cbn [py_ge].
    + destruct (Z.leb_spec r offset) as [Hle|Hlt]; split; [|split| |split].
      * split; [discriminate|]. intros [_ (r' & E & Hlt)]. injection E as <-. lia.
      * intros [E|[E|[E|E] ] ]; congruence.
      * reflexivity.
      * split; [|reflexivity]. intros _. split; [done|]. by exists r.
      * intros [E|[E|[E|E] ] ]; congruence.
      * intros r' _ E Hge. injection E as <-. lia.
    + split; [|split].
      * split; [discriminate|]. intros [_ (r' & E & _)]. discriminate.
      * intros [E|[E|[E|E] ] ]; congruence.
      * reflexivity.
  - split; [|split].
    + split; [discriminate|]. intros [E _]. contradiction.
    + reflexivity.
    + intros r' E. contradiction.
Qed.

(** C3: the stored state is the derived state.  Whatever the dictionary
    held, and whatever sequence of [set_local_offset] and
    [set_remote_offset] calls came first, a call that returns normally leaves
    under its key a record whose state is [get_state_from_offsets] of the
    offsets stored next to it. *)
Theorem stored_state_is_derived
    (parts : gmap Key Entry) (cs : list OffsetCall) (c : OffsetCall) :
  outcome (exec c (run cs parts)) = inr tt →
  ∃ offsets,
    store (exec c (run cs parts)) !! call_key c
    = Some (Some (get_state_from_offsets offsets), offsets).
Proof.
  intros Hok. revert Hok. rewrite exec_eq. cbv zeta. unfold outcome, store.
  case_decide; cbn [fst snd]; [intros _|discriminate].
  eexists. apply lookup_insert_eq.
Qed.

Lemma stored_state_is_derived_witness :
  outcome (exec (SetLocal "T" 0 50) (run [SetRemote "T" 0 100] init)) = inr tt
  ∧ ∃ offsets,
      store (exec (SetLocal "T" 0 50) (run [SetRemote "T" 0 100] init)) !! ("T", 0)
      = Some (Some (get_state_from_offsets offsets), offsets).
Proof.
  split; [reflexivity|].
  apply (stored_state_is_derived init [SetRemote "T" 0 100] (SetLocal "T" 0 50)).
  reflexivity.
Defined.

(** C4: the validation step.  [set_local_offset] and [set_remote_offset]
    raise [InvalidStateTransition] exactly when the state derived from the
    updated offsets differs from the previous state and is not listed in the
    previous state's row of [transitions]; they raise nothing else; and when
    they raise, the dictionary is the one they were called with. *)
Theorem invalid_transition_raised_iff (c : OffsetCall) (parts : gmap Key Entry) :
  let prev := peek parts (call_key c) in
  let updated_state := get_state_from_offsets (updated_offsets c prev.2) in
  let res := exec c parts in
  (outcome res = inl (InvalidStateTransition prev.1 updated_state) ↔
     prev.1 ≠ Some updated_state ∧ updated_state ∉ transitions prev.1)
  ∧ (∀ e, outcome res = inl e → e = InvalidStateTransition prev.1 updated_state)
  ∧ (∀ e, outcome res = inl e → store res = parts ∧ peek (store res) (call_key c) = prev).
Proof.
  intros prev us res. subst res. rewrite exec_eq. fold prev. cbv zeta. fold us.
  unfold outcome, store. case_decide as Ha; cbn [fst snd].
  - split; [|split]; [|discriminate..].
    split; [discriminate|]. intros [Hne Hnin]. by destruct Ha.
  - assert (touch (call_key c) parts = parts) as Ht.
    { apply touch_present. by apply not_allowed_present. }
    split; [|split].
    + split; [|reflexivity]. intros _. unfold allowed in Ha. tauto.
    + intros e [= <-]. reflexivity.
    + intros e _. by rewrite Ht.
Qed.

(** C5: the callback.  A call of [set_local_offset] or [set_remote_offset]
    that returns normally invokes the callback exactly once, with
    [(topic, partition, (previous_state, previous_offsets),
    (updated_state, updated_offsets))], if the derived state differs from the
    previous state, and does not invoke it if the derived state is the
    previous state, whatever the offsets. *)
Theorem callback_once_on_state_change (c : OffsetCall) (parts : gmap Key Entry) :
  outcome (exec c parts) = inr tt →
  let prev := peek parts (call_key c) in
  let updated_offsets := updated_offsets c prev.2 in
  let updated_state := get_state_from_offsets updated_offsets in
  callbacks (trace (exec c parts)) =
    if decide (prev.1 = Some updated_state) then []
    else [Callback (call_key c).1 (call_key c).2 prev
            (Some updated_state, updated_offsets)].
Proof.
  intros Hok prev uo us. revert Hok. rewrite exec_eq. fold prev. cbv zeta.
  fold uo us. unfold outcome, trace.
  case_decide as Ha; cbn [fst snd]; [intros _|discriminate].
  subst us uo.
  destruct c as [t p v|t p v];
    cbn [call_trace call_key updated_offsets fst snd] in *;
    unfold local_trace, remote_trace, callbacks;
    rewrite List.filter_app, (decide_True _ _ Ha);
    destruct (py_lt _ _); cbn [List.filter is_log_info is_callback app];
    repeat case_decide; try reflexivity; try contradiction.
Qed.

Lemma callback_once_on_state_change_witness :
  outcome (exec (SetLocal "T" 0 50) (run [SetRemote "T" 0 100] init)) = inr tt
  ∧ callbacks (trace (exec (SetLocal "T" 0 50) (run [SetRemote "T" 0 100] init)))
    = [Callback "T" 0
         (Some UNKNOWN, mkOffsets None (Some 100))
         (Some LOCAL_BEHIND, mkOffsets (Some 50) (Some 100))].
Proof.
  split; [reflexivity|].
  apply (callback_once_on_state_change (SetLocal "T" 0 50)
           (run [SetRemote "T" 0 100] init)).
  reflexivity.
Defined.

(** The example of the documentation: local moves from 5 to 7 while remote
    stays at 10; the state stays [LOCAL_BEHIND] and nothing is called. *)
Example callback_silent_5_7_10 :
  let parts := run [SetRemote "T" 0 10; SetLocal "T" 0 5] init in
  peek parts ("T", 0) = (Some LOCAL_BEHIND, mkOffsets (Some 5) (Some 10))
  ∧ set_local_offset "T" 0 7 parts
    = (inr tt,
       <[("T", 0) := (Some LOCAL_BEHIND, mkOffsets (Some 7) (Some 10))]> parts,
       []).
Proof. split; reflexivity. Qed.

(** C6, as the code has it: [validate_local_message] reads the dictionary
    through [defaultdict.__getitem__].  It never changes the record of a key
    that has one, and never changes what a read of any key yields; on a key
    without a record it stores the default record, absent state and both
    offsets absent, under that key, and that is all it changes, whether it
    returns or raises. *)
Theorem validate_local_message_frame
    (topic : string) (partition offset : Z) (parts : gmap Key Entry) :
  let res := validate_local_message topic partition offset parts in
  store res =
    match parts !! (topic, partition) with
    | Some _ => parts
    | None => <[(topic, partition) := default_entry]> parts
    end
  ∧ (∀ key, peek (store res) key = peek parts key)
  ∧ (∀ key e, parts !! key = Some e → store res !! key = Some e)
  ∧ (∀ key, key ≠ (topic, partition) → store res !! key = parts !! key).
Proof.
  intros res. subst res. rewrite validate_local_message_eq.
  unfold store; cbn [fst snd]. split; [reflexivity|]. split; [|split].
  - intros key. apply peek_touch.
  - intros key e He. by apply touch_lookup_Some.
  - intros key Hne. by apply touch_lookup_ne.
Qed.

(** C6, as stated, fails: on a fresh manager the check raises and leaves a
    record behind for a key no update has ever named. *)
Lemma validate_local_message_creates_record :
  init !! ("T", 0) = None
  ∧ outcome (validate_local_message "T" 0 60 init) = inl InvalidState
  ∧ store (validate_local_message "T" 0 60 init) !! ("T", 0) = Some default_entry
  ∧ store (validate_local_message "T" 0 60 init) ≠ init.
Proof.
  split; [reflexivity|]. split; [reflexivity|]. split; [reflexivity|].
  intros E. apply (f_equal (λ m : gmap Key Entry, m !! ("T", 0))) in E.
  vm_compute in E. discriminate E.
Qed.

(** C7: an update writes one side of one key.  After a [set_local_offset]
    that returns normally the key's offsets have the new value on the local
    side and the previously stored value on the remote side; after a
    [set_remote_offset], the new value on the remote side and the previously
    stored value on the local side; the records of all other keys are the
    ones the call found. *)
Theorem update_writes_one_side (c : OffsetCall) (parts : gmap Key Entry) :
  outcome (exec c parts) = inr tt →
  let prev := peek parts (call_key c) in
  (∃ state,
     store (exec c parts) !! call_key c =
       Some (state,
             match c with
             | SetLocal _ _ value => mkOffsets (Some value) (remote prev.2)
             | SetRemote _ _ value => mkOffsets (local prev.2) (Some value)
             end))
  ∧ (∀ key, key ≠ call_key c → store (exec c parts) !! key = parts !! key).
Proof.
  intros Hok prev. split; [|intros key Hne; by apply exec_store_other].
  revert Hok. rewrite exec_eq. fold prev. cbv zeta. unfold outcome, store.
  case_decide; cbn [fst snd]; [intros _|discriminate].
  eexists. rewrite lookup_insert_eq. by destruct c.
Qed.

Lemma update_writes_one_side_witness :
  outcome (exec (SetLocal "T" 0 50) (run [SetRemote "T" 0 100] init)) = inr tt
  ∧ (∃ state,
       store (exec (SetLocal "T" 0 50) (run [SetRemote "T" 0 100] init)) !! ("T", 0)
       = Some (state, mkOffsets (Some 50) (Some 100)))
  ∧ (∀ key, key ≠ ("T", 0) →
       store (exec (SetLocal "T" 0 50) (run [SetRemote "T" 0 100] init)) !! key
       = run [SetRemote "T" 0 100] init !! key).
Proof.
  split; [reflexivity|].
  apply (update_writes_one_side (SetLocal "T" 0 50) (run [SetRemote "T" 0 100] init)).
  reflexivity.
Defined.

(** C8: offsets that move backwards.  When the new value is strictly below
    the value stored on the side being written, the call logs the anomaly
    once and otherwise does what it does for any value: the only exception
    it can raise is the [InvalidStateTransition] of the validation step, and
    when that step passes (as it does on every record whose state was derived
    from its offsets) it returns normally, having stored the new, lower value
    and the state derived from it. *)
Theorem backward_offset_only_logged
    (c : OffsetCall) (parts : gmap Key Entry) (previous : Z) :
  side c (peek parts (call_key c)).2 = Some previous →
  call_value c < previous →
  let prev := peek parts (call_key c) in
  let updated_offsets := updated_offsets c prev.2 in
  let updated_state := get_state_from_offsets updated_offsets in
  let res := exec c parts in
  (∃ msg, infos (trace res) = [LogInfo msg (call_value c) (Some previous)])
  ∧ (∀ e, outcome res = inl e →
          e = InvalidStateTransition prev.1 updated_state
          ∧ ¬ allowed prev.1 updated_state)
  ∧ (allowed prev.1 updated_state →
       outcome res = inr tt
       ∧ store res = <[call_key c := (Some updated_state, updated_offsets)]> parts)
  ∧ (derived_entry prev → allowed prev.1 updated_state).
Proof.
  intros Hside Hlt prev uo us res. subst res. rewrite exec_eq. fold prev.
  cbv zeta. fold uo us. fold prev in Hside. split; [|split; [|split] ].
  - assert (infos (call_trace c prev)
            = [LogInfo (match c with
                        | SetLocal _ _ _ =>
                            "Local offset has moved backwards (current: %s, previous: %s)"
                        | SetRemote _ _ _ =>
                            "Remote offset has moved backwards (current: %s, previous: %s)"
                        end) (call_value c) (Some previous)]) as Hinfo.
    { destruct c as [t p v|t p v]; cbn [side call_value call_trace] in *;
        unfold local_trace, remote_trace, infos;
        rewrite Hside; cbn [py_lt];
        rewrite (proj2 (Z.ltb_lt _ _) Hlt), List.filter_app;
        repeat case_decide; reflexivity. }
    eexists. unfold trace. case_decide; cbn [snd]; exact Hinfo.
  - intros e. unfold outcome. case_decide; cbn [fst]; [discriminate|].
    intros [= <-]. done.
  - intros Ha. rewrite (decide_True _ _ Ha). done.
  - intros Hd. apply wf_entry_allowed. by right.
Qed.

Lemma backward_offset_only_logged_witness :
  side (SetLocal "T" 0 40)
    (peek (run [SetRemote "T" 0 100; SetLocal "T" 0 100] init) ("T", 0)).2 = Some 100
  ∧ 40 < 100
  ∧ ∃ msg,
      infos (trace (exec (SetLocal "T" 0 40)
                      (run [SetRemote "T" 0 100; SetLocal "T" 0 100] init)))
      = [LogInfo msg 40 (Some 100)].
Proof.
  split; [reflexivity|]. split; [reflexivity|].
  apply (backward_offset_only_logged (SetLocal "T" 0 40)
           (run [SetRemote "T" 0 100; SetLocal "T" 0 100] init) 100);
    reflexivity.
Defined.

(** The example of the documentation: [set_local_offset(40)] after local
    has reached 100. *)
Example backward_40_after_100 :
  let parts := run [SetRemote "T" 0 100; SetLocal "T" 0 100] init in
  peek parts ("T", 0) = (Some SYNCHRONIZED, mkOffsets (Some 100) (Some 100))
  ∧ outcome (set_local_offset "T" 0 40 parts) = inr tt
  ∧ peek (store (set_local_offset "T" 0 40 parts)) ("T", 0)
    = (Some LOCAL_BEHIND, mkOffsets (Some 40) (Some 100)).
Proof. repeat split; reflexivity. Qed.

(** C9: a fresh manager never sees an invalid transition.  After any
    sequence of [set_local_offset] and [set_remote_offset] calls on a fresh
    manager, over any keys and values, every call of the sequence has
    returned normally, and so does any further call: when its derived state
    differs from the previous state, the pair is in [transitions].  The
    reasons: a key in the absent state derives [UNKNOWN], and a key with both
    sides present never derives [UNKNOWN]. *)
Theorem no_invalid_transition_from_init (cs : list OffsetCall) (c : OffsetCall) :
  let parts := run cs init in
  let prev := peek parts (call_key c) in
  let updated_state := get_state_from_offsets (updated_offsets c prev.2) in
  Forall (λ o, o = inr tt) (outcomes cs init)
  ∧ outcome (exec c parts) = inr tt
  ∧ (prev.1 ≠ Some updated_state → updated_state ∈ transitions prev.1)
  ∧ (prev.1 = None → updated_state = UNKNOWN)
  ∧ (both_present prev.2 → updated_state ≠ UNKNOWN).
Proof.
  intros parts prev us.
  assert (wf parts) as Hwf by (apply wf_run, wf_init).
  split; [apply outcomes_wf, wf_init|].
  split; [by rewrite exec_wf_entry by apply Hwf|].
  split; [|split].
  - intros Hne. destruct (wf_entry_allowed c prev (Hwf _)) as [E|Hin]; done.
  - intros Hnone. destruct (Hwf (call_key c)) as [E|Hd].
    + subst us. fold prev in E. rewrite E. apply derive_from_default.
    + unfold derived_entry in Hd. fold prev in Hd. congruence.
  - intros Hb E.
    pose proof (derive_both_present _ (updated_offsets_both_present c _ Hb)) as Ht.
    fold us in Ht. rewrite E in Ht. by destruct Ht as [?|[?|?] ].
Qed.

(** C10: a complete pair stays complete.  Once a key's stored offsets have
    both the local and the remote side, they have both after any further
    sequence of [set_local_offset] and [set_remote_offset] calls; and a state
    that is [LOCAL_BEHIND], [REMOTE_BEHIND] or [SYNCHRONIZED] is still one of
    these three afterwards, neither [UNKNOWN] nor absent. *)
Theorem offsets_stay_present
    (parts : gmap Key Entry) (cs : list OffsetCall) (key : Key) :
  both_present (peek parts key).2 →
  both_present (peek (run cs parts) key).2
  ∧ (tracked (peek parts key).1 →
     tracked (peek (run cs parts) key).1
     ∧ (peek (run cs parts) key).1 ≠ Some UNKNOWN
     ∧ (peek (run cs parts) key).1 ≠ None).
Proof.
  revert parts. induction cs as [|c cs IH]; intros parts Hb; cbn [run].
  - split; [done|]. intros Ht. split; [done|].
    by destruct Ht as [-> | [-> | ->] ].
  - destruct (IH (store (exec c parts))) as [Hb' Ht'].
    { by apply exec_both_present. }
    split; [done|]. intros Ht. apply Ht'. by apply exec_tracked.
Qed.

Lemma offsets_stay_present_witness :
  both_present (peek (run [SetRemote "T" 0 100; SetLocal "T" 0 50] init) ("T", 0)).2
  ∧ both_present
      (peek (run [SetLocal "T" 0 120; SetRemote "T" 0 7]
               (run [SetRemote "T" 0 100; SetLocal "T" 0 50] init)) ("T", 0)).2.
Proof.
  assert (both_present
            (peek (run [SetRemote "T" 0 100; SetLocal "T" 0 50] init) ("T", 0)).2)
    as Hb by (split; eexists; reflexivity).
  split; [exact Hb|].
  exact (proj1 (offsets_stay_present
                  (run [SetRemote "T" 0 100; SetLocal "T" 0 50] init)
                  [SetLocal "T" 0 120; SetRemote "T" 0 7] ("T", 0) Hb)).
Defined.

(** * Further properties of the three methods *)

(** ** Helper facts *)

Lemma touch_lookup_eq key parts : touch key parts !! key = Some (peek parts key).
Proof.
  unfold touch, peek. destruct (parts !! key) eqn:E.
  - by rewrite E.
  - by rewrite lookup_insert_eq.
Qed.

Lemma exec_outcome (c : OffsetCall) parts :
  outcome (exec c parts) =
    let prev := peek parts (call_key c) in
    let us := get_state_from_offsets (updated_offsets c prev.2) in
    if decide (allowed prev.1 us) then inr tt
    else inl (InvalidStateTransition prev.1 us).
Proof. rewrite exec_eq. cbv zeta. unfold outcome. by case_decide. Qed.

Lemma exec_trace (c : OffsetCall) parts :
  trace (exec c parts) = call_trace c (peek parts (call_key c)).
Proof. rewrite exec_eq. cbv zeta. unfold trace. by case_decide. Qed.

Lemma exec_lookup_same (c : OffsetCall) parts :
  store (exec c parts) !! call_key c
  = Some (peek (store (exec c parts)) (call_key c)).
Proof.
  rewrite exec_eq. cbv zeta. unfold store. case_decide; cbn [fst snd].
  - by rewrite peek_insert_eq, lookup_insert_eq.
  - by rewrite peek_touch, touch_lookup_eq.
Qed.

Lemma validate_outcome_trace topic partition offset parts :
  let cur := peek parts (topic, partition) in
  let r := validate_local_message topic partition offset parts in
  outcome r =
    (if decide (cur.1 = Some LOCAL_BEHIND)
     then if py_ge (Some offset) (remote cur.2) then inl MessageNotReady else inr tt
     else inl InvalidState)
  ∧ store r = touch (topic, partition) parts
  ∧ trace r =
      (if decide (cur.1 = Some LOCAL_BEHIND)
       then if py_ge (Some offset) (remote cur.2) then []
            else if py_lt (Some offset) (local cur.2)
                 then [LogWarning
                         "Received a message prior to local offset (local consumer offset rewound without update?)"
                         []]
                 else []
       else []).
Proof.
  intros cur r. subst r. rewrite validate_local_message_eq. by fold cur.
Qed.

(** ** Logging *)

(** X1: the overtaking warning.  [set_local_offset] logs its warning,
    once, exactly when it returns normally, the previous state was not
    [REMOTE_BEHIND], and the new local value is above the stored remote
    offset; [set_remote_offset] never logs a warning. *)
Theorem remote_behind_warning
    (topic : string) (partition value : Z) (parts : gmap Key Entry) :
  let prev := peek parts (topic, partition) in
  let rl := set_local_offset topic partition value parts in
  let rr := set_remote_offset topic partition value parts in
  (warnings (trace rl) = []
   ∨ warnings (trace rl)
     = [LogWarning "Current local offset (%s) exceeds remote offset (%s)!"
          [Some value; remote prev.2] ])
  ∧ (warnings (trace rl) ≠ [] ↔
       outcome rl = inr tt ∧ prev.1 ≠ Some REMOTE_BEHIND
       ∧ ∃ r, remote prev.2 = Some r ∧ r < value)
  ∧ warnings (trace rr) = [].
Proof.
  intros prev rl rr. subst rl rr.
  change (set_local_offset topic partition value parts)
    with (exec (SetLocal topic partition value) parts).
  change (set_remote_offset topic partition value parts)
    with (exec (SetRemote topic partition value) parts).
  rewrite (exec_trace (SetRemote topic partition value)).
  rewrite (exec_trace (SetLocal topic partition value)).
  rewrite (exec_outcome (SetLocal topic partition value)).
  cbn [call_key call_trace updated_offsets]. fold prev. cbv zeta.
  unfold local_trace, remote_trace, warnings. rewrite !List.filter_app.
  set (us := get_state_from_offsets _).
  assert (us = REMOTE_BEHIND ↔ ∃ r, remote prev.2 = Some r ∧ r < value) as Hus.
  { subst us. unfold get_state_from_offsets; cbn [local remote].
    destruct (remote prev.2) as [r|].
    - destruct (Z.ltb_spec value r); [|destruct (Z.ltb_spec r value)].
      + split; [discriminate|]. intros (r' & [= <-] & ?). lia.
      + split; [|done]. intros _. by exists r.
      + split; [discriminate|]. intros (r' & [= <-] & ?). lia.
    - split; [discriminate|]. intros (r' & E & _). discriminate. }
  split; [|split].
  - destruct (py_lt _ _); repeat case_decide; cbn; auto.
  - destruct (py_lt (Some value) (local prev.2));
      cbn [List.filter is_log_warning app];
      destruct (decide (allowed prev.1 us)) as [Ha|Ha];
      cbn [List.filter is_log_warning app].
    all: try (split; [done|]; intros (E & _); discriminate).
    all: destruct (decide (prev.1 = Some us)) as [Hs|Hs];
      cbn [List.filter is_log_warning app].
    all: try (split; [done|]; intros (_ & Hne & Hr);
              apply Hus in Hr; congruence).
    all: destruct (decide (us = REMOTE_BEHIND)) as [Hr|Hr];
      cbn [List.filter is_log_warning app].
    all: try (split; [done|]; intros (_ & _ & Hx); apply Hus in Hx; done).
    all: split; [intros _|done].
    all: split; [done|]; split; [congruence|by apply Hus].
  - destruct (py_lt _ _); repeat case_decide; reflexivity.
Qed.

(** X2: the rewind warning.  [validate_local_message] emits nothing but
    its warning, and emits it exactly when it returns normally and the
    message's offset is below the stored local offset; a call that raises
    logs nothing, and no call invokes the callback. *)
Theorem validate_local_message_warning
    (topic : string) (partition offset : Z) (parts : gmap Key Entry) :
  let cur := peek parts (topic, partition) in
  let r := validate_local_message topic partition offset parts in
  (trace r = []
   ∨ trace r
     = [LogWarning
          "Received a message prior to local offset (local consumer offset rewound without update?)"
          [] ])
  ∧ (trace r ≠ [] ↔
       outcome r = inr tt ∧ ∃ l, local cur.2 = Some l ∧ offset < l)
  ∧ callbacks (trace r) = [].
Proof.
  intros cur r.
  destruct (validate_outcome_trace topic partition offset parts) as (Ho & _ & Ht).
  fold cur r in Ho, Ht. rewrite Ho, Ht. clear Ho Ht.
  assert (py_lt (Some offset) (local cur.2) = true
          ↔ ∃ l, local cur.2 = Some l ∧ offset < l) as Hlt.
  { destruct (local cur.2) as [l|]; cbn [py_lt].
    - rewrite Z.ltb_lt. split; [by exists l|]. by intros (l' & [= <-] & ?).
    - split; [discriminate|]. intros (l' & E & _). discriminate. }
  case_decide; [destruct (py_ge _ _)|]; try destruct (py_lt _ _) eqn:E;
    (split; [auto|split; [|reflexivity] ]).
  all: try (split; [done|]; intros (E' & _); discriminate).
  - split; [intros _|done]. split; [done|]. by apply Hlt.
  - split; [done|]. intros (_ & Hl). apply Hlt in Hl. discriminate.
Qed.

(** X3: when the backward-movement record is logged.  An update logs
    [logger.info], once, exactly when a value is already stored on the side
    it writes and the new value is strictly smaller; never on the first
    report for that side, nor for an equal or a larger value; and it does so
    whether or not the call then raises. *)
Theorem backward_log_iff (c : OffsetCall) (parts : gmap Key Entry) :
  let prev := peek parts (call_key c) in
  (infos (trace (exec c parts)) = []
   ∨ ∃ msg, infos (trace (exec c parts))
            = [LogInfo msg (call_value c) (side c prev.2)])
  ∧ (infos (trace (exec c parts)) ≠ [] ↔
       ∃ previous, side c prev.2 = Some previous ∧ call_value c < previous).
Proof.
  intros prev. rewrite exec_trace. fold prev.
  assert (py_lt (Some (call_value c)) (side c prev.2) = true
          ↔ ∃ p, side c prev.2 = Some p ∧ call_value c < p) as Hlt.
  { destruct (side c prev.2) as [p|]; cbn [py_lt].
    - rewrite Z.ltb_lt. split; [by exists p|]. by intros (p' & [= <-] & ?).
    - split; [discriminate|]. intros (p' & E & _). discriminate. }
  rewrite <- Hlt. clear Hlt.
  destruct c as [t p v|t p v]; cbn [call_trace side call_value];
    unfold local_trace, remote_trace, infos; rewrite List.filter_app;
    destruct (py_lt _ _); cbn [List.filter is_log_info app];
    repeat case_decide; cbn [List.filter is_log_info app];
    (split; [eauto|]); split; done.
Qed.

(** ** The callback *)

Lemma call_trace_callbacks (c : OffsetCall) (prev : Entry) :
  let uo := updated_offsets c prev.2 in
  let us := get_state_from_offsets uo in
  callbacks (call_trace c prev) =
    if decide (allowed prev.1 us ∧ prev.1 ≠ Some us)
    then [Callback (call_key c).1 (call_key c).2 prev (Some us, uo)]
    else [].
Proof.
  destruct c as [t p v|t p v];
    cbn [call_trace call_key updated_offsets fst snd];
    unfold local_trace, remote_trace, callbacks;
    rewrite List.filter_app;
    destruct (py_lt _ _); cbn [List.filter is_callback app];
    repeat case_decide; cbn [List.filter is_callback app];
    try reflexivity; tauto.
Qed.

(** X4: what the callback is told.  Whenever an update invokes the
    callback, the call returns normally, the callback receives the call's own
    topic and partition, the record that was stored before the call and the
    record that is stored after it, and the reported pair of states is a
    change listed in [transitions].  In particular a call that raises invokes
    no callback. *)
Theorem callback_reports_stored_change
    (c : OffsetCall) (parts : gmap Key Entry) (e : Event) :
  e ∈ callbacks (trace (exec c parts)) →
  outcome (exec c parts) = inr tt
  ∧ e = Callback (call_key c).1 (call_key c).2
          (peek parts (call_key c))
          (peek (store (exec c parts)) (call_key c))
  ∧ ∃ updated_state,
      (peek (store (exec c parts)) (call_key c)).1 = Some updated_state
      ∧ (peek parts (call_key c)).1 ≠ Some updated_state
      ∧ updated_state ∈ transitions (peek parts (call_key c)).1.
Proof.
  rewrite exec_trace, call_trace_callbacks, exec_outcome, exec_peek_same.
  cbv zeta. intros He.
  case_decide as Hc; [|by apply not_elem_of_nil in He].
  destruct Hc as [Ha Hne].
  destruct (decide (allowed _ _)) as [_|Hn]; [|by destruct Hn].
  apply list_elem_of_singleton in He. split; [done|]. split; [done|].
  eexists. split; [reflexivity|]. split; [done|].
  by destruct Ha.
Qed.

Lemma callback_reports_stored_change_witness :
  Callback "T" 0 (Some UNKNOWN, mkOffsets None (Some 100))
    (Some LOCAL_BEHIND, mkOffsets (Some 50) (Some 100))
  ∈ callbacks (trace (exec (SetLocal "T" 0 50) (run [SetRemote "T" 0 100] init)))
  ∧ outcome (exec (SetLocal "T" 0 50) (run [SetRemote "T" 0 100] init)) = inr tt.
Proof.
  assert (Callback "T" 0 (Some UNKNOWN, mkOffsets None (Some 100))
            (Some LOCAL_BEHIND, mkOffsets (Some 50) (Some 100))
          ∈ callbacks (trace (exec (SetLocal "T" 0 50)
                                (run [SetRemote "T" 0 100] init)))) as Hin.
  { apply list_elem_of_singleton. reflexivity. }
  split; [exact Hin|].
  exact (proj1 (callback_reports_stored_change (SetLocal "T" 0 50)
                  (run [SetRemote "T" 0 100] init) _ Hin)).
Defined.

(** ** Lifecycle of a record *)

(** X5: the first update of a key.  On a key that has no record, either
    update returns normally, stores state [UNKNOWN] with the reported value
    on its side and nothing on the other, and its only effect besides is one
    callback whose previous record is the default one (absent state, both
    offsets absent). *)
Theorem first_update_of_key (c : OffsetCall) (parts : gmap Key Entry) :
  parts !! call_key c = None →
  exec c parts =
    (inr tt,
     <[call_key c := (Some UNKNOWN, updated_offsets c (mkOffsets None None))]> parts,
     [Callback (call_key c).1 (call_key c).2 default_entry
        (Some UNKNOWN, updated_offsets c (mkOffsets None None))]).
Proof.
  intros Hnone. rewrite exec_eq. cbv zeta.
  assert (peek parts (call_key c) = default_entry) as ->.
  { unfold peek. by rewrite Hnone. }
  rewrite derive_from_default.
  rewrite decide_True by (right; cbn; set_solver).
  destruct c; reflexivity.
Qed.

Lemma first_update_of_key_witness :
  init !! ("T", 0) = None
  ∧ exec (SetRemote "T" 0 100) init =
      (inr tt,
       <[("T", 0) := (Some UNKNOWN, mkOffsets None (Some 100))]> init,
       [Callback "T" 0 default_entry (Some UNKNOWN, mkOffsets None (Some 100))]).
Proof.
  split; [reflexivity|].
  apply (first_update_of_key (SetRemote "T" 0 100) init). reflexivity.
Defined.

Lemma call_trace_settled (c : OffsetCall) (o : Offsets) :
  side c o = Some (call_value c) →
  call_trace c (Some (get_state_from_offsets o), o) = [].
Proof.
  intros Hside.
  destruct c as [t p v|t p v], o as [l r]; cbn [side call_value local remote] in *;
    subst; cbn [call_trace]; unfold local_trace, remote_trace;
    cbn [fst snd local remote py_lt]; rewrite Z.ltb_irrefl; cbn [app];
    (case_decide as Hx; [|destruct Hx; by left]);
    by rewrite decide_True.
Qed.

(** X6: repeating an update.  After an update has returned normally, the
    same update made again returns normally, leaves the dictionary as it is,
    and has no effect at all: no log record and no callback. *)
Theorem repeated_update_is_silent (c : OffsetCall) (parts : gmap Key Entry) :
  outcome (exec c parts) = inr tt →
  exec c (store (exec c parts)) = (inr tt, store (exec c parts), []).
Proof.
  rewrite exec_outcome. cbv zeta. intros Hok.
  destruct (decide (allowed _ _)) as [Ha|]; [clear Hok|discriminate].
  set (prev := peek parts (call_key c)) in *.
  set (uo := updated_offsets c prev.2) in *.
  set (us := get_state_from_offsets uo) in *.
  assert (peek (store (exec c parts)) (call_key c) = (Some us, uo)) as Hpeek.
  { rewrite exec_peek_same. cbv zeta. fold prev uo us. by rewrite decide_True. }
  assert (updated_offsets c uo = uo) as Hidem by (subst uo; by destruct c).
  rewrite (exec_eq c (store (exec c parts))). cbv zeta.
  rewrite Hpeek. cbn [fst snd]. rewrite Hidem. fold us.
  rewrite decide_True by (by left).
  f_equal; [f_equal|].
  - apply insert_id. by rewrite exec_lookup_same, Hpeek.
  - apply call_trace_settled. subst uo. by destruct c.
Qed.

Lemma repeated_update_is_silent_witness :
  outcome (exec (SetLocal "T" 0 50) init) = inr tt
  ∧ exec (SetLocal "T" 0 50) (store (exec (SetLocal "T" 0 50) init))
    = (inr tt, store (exec (SetLocal "T" 0 50) init), []).
Proof.
  split; [reflexivity|].
  apply (repeated_update_is_silent (SetLocal "T" 0 50) init). reflexivity.
Defined.

(** ** Calls of all three methods *)

Lemma perform_lookup (c : Call) parts key :
  store (perform c parts) !! key =
    if decide (key = target c)
    then Some (peek (store (perform c parts)) (target c))
    else parts !! key.
Proof.
  case_decide as Hk.
  - subst key. destruct c as [c|t p o]; cbn [perform target].
    + apply exec_lookup_same.
    + destruct (validate_outcome_trace t p o parts) as (_ & -> & _).
      by rewrite peek_touch, touch_lookup_eq.
  - destruct c as [c|t p o]; cbn [perform target] in *.
    + by apply exec_store_other.
    + destruct (validate_outcome_trace t p o parts) as (_ & -> & _).
      by apply touch_lookup_ne.
Qed.

Lemma perform_peek_other (c : Call) parts key :
  key ≠ target c → peek (store (perform c parts)) key = peek parts key.
Proof.
  intros Hne. unfold peek. rewrite perform_lookup. by rewrite decide_False.
Qed.

(** A call sees the dictionary only through a read of its own key. *)
Lemma perform_local (c : Call) m1 m2 :
  peek m1 (target c) = peek m2 (target c) →
  outcome (perform c m1) = outcome (perform c m2)
  ∧ trace (perform c m1) = trace (perform c m2)
  ∧ peek (store (perform c m1)) (target c) = peek (store (perform c m2)) (target c).
Proof.
  intros Hp. destruct c as [c|t p o]; cbn [perform target] in *.
  - rewrite !exec_outcome, !exec_trace, !exec_peek_same. cbv zeta.
    by rewrite Hp.
  - destruct (validate_outcome_trace t p o m1) as (-> & -> & ->).
    destruct (validate_outcome_trace t p o m2) as (-> & -> & ->).
    rewrite !peek_touch. by rewrite Hp.
Qed.

Lemma perform_same_reads (c : Call) m1 m2 :
  same_reads m1 m2 → same_reads (store (perform c m1)) (store (perform c m2)).
Proof.
  intros Hs key. destruct (decide (key = target c)) as [->|Hne].
  - by apply perform_local.
  - by rewrite !perform_peek_other.
Qed.

Lemma wf_perform (c : Call) parts : wf parts → wf (store (perform c parts)).
Proof.
  destruct c as [c|t p o]; cbn [perform].
  - apply wf_exec.
  - apply wf_validate.
Qed.

Lemma wf_run_calls cs : ∀ parts, wf parts → wf (run_calls cs parts).
Proof.
  induction cs as [|c cs IH]; intros parts Hwf; cbn; [done|].
  apply IH. by apply wf_perform.
Qed.

(** X7: calls on different keys do not interfere.  For two calls, of any
    of the three methods, that name different [(topic, partition)] keys, the
    outcome and the events of each are the same whether it is made before or
    after the other, and the dictionary left by both is the same in either
    order. *)
Theorem calls_on_distinct_keys_commute (c1 c2 : Call) (parts : gmap Key Entry) :
  target c1 ≠ target c2 →
  store (perform c2 (store (perform c1 parts)))
  = store (perform c1 (store (perform c2 parts)))
  ∧ outcome (perform c2 (store (perform c1 parts))) = outcome (perform c2 parts)
  ∧ trace (perform c2 (store (perform c1 parts))) = trace (perform c2 parts)
  ∧ outcome (perform c1 (store (perform c2 parts))) = outcome (perform c1 parts)
  ∧ trace (perform c1 (store (perform c2 parts))) = trace (perform c1 parts).
Proof.
  intros Hne.
  assert (peek (store (perform c1 parts)) (target c2) = peek parts (target c2))
    as H12 by (apply perform_peek_other; congruence).
  assert (peek (store (perform c2 parts)) (target c1) = peek parts (target c1))
    as H21 by (by apply perform_peek_other).
  destruct (perform_local c2 _ _ H12) as (Ho2 & Ht2 & Hp2).
  destruct (perform_local c1 _ _ H21) as (Ho1 & Ht1 & Hp1).
  split; [|done].
  apply map_eq. intros key. rewrite !perform_lookup.
  repeat case_decide; subst; try congruence.
Qed.

Lemma calls_on_distinct_keys_commute_witness :
  ("T", 0) ≠ ("T", 1)
  ∧ store (perform (Validate "T" 1 5) (store (perform (Update (SetLocal "T" 0 50)) init)))
    = store (perform (Update (SetLocal "T" 0 50)) (store (perform (Validate "T" 1 5) init))).
Proof.
  assert (("T", 0) ≠ ("T", 1)) as Hne by discriminate.
  split; [exact Hne|].
  exact (proj1 (calls_on_distinct_keys_commute
                  (Update (SetLocal "T" 0 50)) (Validate "T" 1 5) init Hne)).
Defined.

(** X8: records are never removed.  After a call of any of the three
    methods the dictionary has a record for exactly the keys it had before
    and the key the call names. *)
Theorem keys_only_grow (c : Call) (parts : gmap Key Entry) :
  dom (store (perform c parts)) = {[target c]} ∪ dom parts.
Proof.
  apply set_eq. intros key.
  rewrite elem_of_union, elem_of_singleton, !elem_of_dom, perform_lookup.
  case_decide; split; try tauto; eauto.
Qed.

(** X9: the manager used only through its methods.  After any sequence
    of [set_local_offset], [set_remote_offset] and [validate_local_message]
    calls on a fresh manager, every read yields the default record or a
    record whose state is the one derived from its offsets; no call of the
    sequence has raised [InvalidStateTransition]; and any further update
    returns normally. *)
Theorem methods_keep_records_consistent (cs : list Call) (c : OffsetCall) :
  (∀ key,
     peek (run_calls cs init) key = default_entry
     ∨ (peek (run_calls cs init) key).1
       = Some (get_state_from_offsets (peek (run_calls cs init) key).2))
  ∧ Forall (λ o, ∀ from to, o ≠ inl (InvalidStateTransition from to))
      (run_outcomes cs init)
  ∧ outcome (exec c (run_calls cs init)) = inr tt.
Proof.
  split; [|split].
  - intros key. apply (wf_run_calls cs init wf_init key).
  - generalize wf_init. generalize init.
    induction cs as [|c' cs IH]; intros parts Hwf; cbn; constructor.
    + destruct c' as [c'|t p o]; cbn [perform].
      * rewrite exec_wf_entry by apply Hwf. discriminate.
      * destruct (validate_outcome_trace t p o parts) as (-> & _ & _).
        intros from to. case_decide; [destruct (py_ge _ _)|]; discriminate.
    + apply IH. by apply wf_perform.
  - rewrite exec_wf_entry; [done|]. apply wf_run_calls, wf_init.
Qed.

(** X10: the two sides of one key may be reported in either order.  On a
    manager used only through its methods, reporting a local offset and a
    remote offset for the same key leaves the same dictionary whichever comes
    first: the key holds both values and the state that comparing them
    gives. *)
Theorem local_remote_order_irrelevant
    (cs : list Call) (topic : string) (partition l r : Z) :
  let parts := run_calls cs init in
  run [SetLocal topic partition l; SetRemote topic partition r] parts
  = run [SetRemote topic partition r; SetLocal topic partition l] parts
  ∧ run [SetLocal topic partition l; SetRemote topic partition r] parts
    = <[(topic, partition) :=
          (Some (get_state_from_offsets (mkOffsets (Some l) (Some r))),
           mkOffsets (Some l) (Some r))]> parts.
Proof.
  intros parts.
  assert (wf parts) as Hwf by apply wf_run_calls, wf_init.
  assert (∀ c1 c2 : OffsetCall,
            call_key c1 = (topic, partition) → call_key c2 = (topic, partition) →
            updated_offsets c2 (updated_offsets c1 (peek parts (topic, partition)).2)
            = mkOffsets (Some l) (Some r) →
            run [c1; c2] parts
            = <[(topic, partition) :=
                  (Some (get_state_from_offsets (mkOffsets (Some l) (Some r))),
                   mkOffsets (Some l) (Some r))]> parts) as Hboth.
  { intros c1 c2 Hk1 Hk2 Hup. cbn [run].
    rewrite (exec_wf_entry c1 parts) by apply Hwf.
    unfold store at 2. cbn [fst snd]. rewrite Hk1.
    rewrite exec_wf_entry.
    2:{ rewrite Hk2, peek_insert_eq. by right. }
    unfold store. cbn [fst snd]. rewrite Hk2, peek_insert_eq. cbn [snd].
    rewrite Hup. apply insert_insert_eq. }
  rewrite (Hboth (SetLocal topic partition l) (SetRemote topic partition r))
    by reflexivity.
  rewrite (Hboth (SetRemote topic partition r) (SetLocal topic partition l))
    by reflexivity.
  done.
Qed.

(** X11: what an admitted message guarantees.  On a manager used only
    through its methods, [validate_local_message] returns normally exactly
    when the key has both offsets stored, the local one is below the remote
    one, and the message's offset is below the remote one: no message at or
    beyond the remote consumer's position is admitted. *)
Theorem admitted_message_is_committed
    (cs : list Call) (topic : string) (partition offset : Z) :
  outcome (validate_local_message topic partition offset (run_calls cs init)) = inr tt
  ↔ ∃ l r,
      (peek (run_calls cs init) (topic, partition)).2 = mkOffsets (Some l) (Some r)
      ∧ l < r ∧ offset < r.
Proof.
  pose proof (wf_run_calls cs init wf_init (topic, partition)) as Hwf.
  destruct (validate_outcome_trace topic partition offset (run_calls cs init))
    as (-> & _ & _).
  destruct (peek (run_calls cs init) (topic, partition)) as [st [lo ro] ].
  cbn [fst snd remote] in *.
  destruct Hwf as [Hd|Hd].
  - injection Hd as -> -> ->. rewrite decide_False by discriminate.
    split; [discriminate|]. intros (l & r & E & _). discriminate.
  - unfold derived_entry, get_state_from_offsets in Hd. cbn in Hd. subst st.
    destruct lo as [l|], ro as [r|];
      try (rewrite decide_False by discriminate;
           split; [discriminate|]; intros (l' & r' & E & _); discriminate).
    cbn [py_ge].
    destruct (Z.ltb_spec l r) as [Hlr|Hlr].
    + rewrite decide_True by reflexivity.
      destruct (Z.leb_spec r offset) as [Hle|Hlt].
      * split; [discriminate|]. intros (l' & r' & [= <- <-] & _ & ?). lia.
      * split; [|done]. intros _. by exists l, r.
    + rewrite decide_False by (destruct (r <? l); discriminate).
      split; [discriminate|]. intros (l' & r' & [= <- <-] & ? & _). lia.
Qed.

Lemma run_calls_same_reads cs : ∀ m1 m2,
  same_reads m1 m2 →
  run_outcomes cs m1 = run_outcomes cs m2
  ∧ run_traces cs m1 = run_traces cs m2
  ∧ same_reads (run_calls cs m1) (run_calls cs m2).
Proof.
  induction cs as [|c cs IH]; intros m1 m2 Hs; cbn; [done|].
  destruct (perform_local c m1 m2 (Hs _)) as (-> & -> & _).
  destruct (IH _ _ (perform_same_reads c m1 m2 Hs)) as (-> & -> & Hr).
  done.
Qed.

(** X12: the admission check is invisible to later calls.  The record
    that [validate_local_message] may leave behind changes nothing that can
    be observed: every later sequence of calls of the three methods has the
    same outcomes and the same events, and every read yields the same record,
    as if the check had not been made. *)
Theorem validate_local_message_unobservable
    (topic : string) (partition offset : Z) (parts : gmap Key Entry)
    (cs : list Call) :
  let parts' := store (validate_local_message topic partition offset parts) in
  run_outcomes cs parts' = run_outcomes cs parts
  ∧ run_traces cs parts' = run_traces cs parts
  ∧ ∀ key, peek (run_calls cs parts') key = peek (run_calls cs parts) key.
Proof.
  intros parts'. apply run_calls_same_reads.
  intros key. subst parts'.
  destruct (validate_outcome_trace topic partition offset parts) as (_ & -> & _).
  apply peek_touch.
Qed.
